(** * Working-hours interval model of [data/business/data_business_common.h]

    Shallow embedding of [Data::WorkingInterval], [Data::WorkingIntervals]
    and [Data::WorkingHours].  [TimeId] is a signed 32-bit integer; signed
    overflow is undefined behaviour in C++, so arithmetic on [TimeId] is
    modelled with [Z] and holds for the inputs on which the C++ code does
    not overflow. *)

From Stdlib Require Import ZArith String List Bool Lia.
Import ListNotations.
Open Scope Z_scope.

Module Data.

Definition TimeId := Z.

(** ** [struct WorkingInterval] *)

Definition kDay : TimeId := 24 * 3600.
Definition kWeek : TimeId := 7 * kDay.
Definition kInNextDayMax : TimeId := 6 * 3600.

Record WorkingInterval := mkWorkingInterval {
  start : TimeId;
  end_ : TimeId;
}.

(** Default member initialisers: [TimeId start = 0; TimeId end = 0;]. *)
Definition WorkingInterval_default : WorkingInterval :=
  {| start := 0; end_ := 0 |}.

(** [explicit operator bool() const { return start < end; }] *)
Definition interval_bool (i : WorkingInterval) : bool :=
  start i <? end_ i.

(** [shifted(offset)]: [{ start + offset, end + offset }]. *)
Definition shifted (i : WorkingInterval) (offset : TimeId) : WorkingInterval :=
  {| start := start i + offset; end_ := end_ i + offset |}.

(** [united(other)]. *)
Definition united (i other : WorkingInterval) : WorkingInterval :=
  if negb (interval_bool i) then other
  else if negb (interval_bool other) then i
  else {| start := Z.min (start i) (start other);
          end_ := Z.max (end_ i) (end_ other) |}.

(** [intersected(other)]. *)
Definition intersected (i other : WorkingInterval) : WorkingInterval :=
  let result := {| start := Z.max (start i) (start other);
                   end_ := Z.min (end_ i) (end_ other) |} in
  if interval_bool result then result else WorkingInterval_default.

(** Defaulted [operator==]: field-wise equality. *)
Definition interval_eqb (a b : WorkingInterval) : bool :=
  (start a =? start b) && (end_ a =? end_ b).

(** ** [struct WorkingIntervals] *)

Record WorkingIntervals := mkWorkingIntervals {
  list_ : list WorkingInterval;
}.

(** [explicit operator bool() const]: the range-for loop returning [true]
    at the first truthy interval and [false] after the loop. *)
Fixpoint intervals_bool_loop (l : list WorkingInterval) : bool :=
  match l with
  | [] => false
  | interval :: rest =>
      if interval_bool interval then true else intervals_bool_loop rest
  end.

Definition intervals_bool (s : WorkingIntervals) : bool :=
  intervals_bool_loop (list_ s).

(** ** [struct WorkingHours] *)

(** [QString::isEmpty]. *)
Definition QString_isEmpty (s : string) : bool :=
  match s with
  | EmptyString => true
  | String _ _ => false
  end.

Record WorkingHours := mkWorkingHours {
  intervals : WorkingIntervals;
  timezoneId : string;
}.

(** [explicit operator bool() const { return !timezoneId.isEmpty(); }] *)
Definition hours_bool (h : WorkingHours) : bool :=
  negb (QString_isEmpty (timezoneId h)).

(** ** Members defined out of line (declared in the header only)

    The header declares [WorkingIntervals::normalized()],
    [ExtractDayIntervals], [RemoveDayIntervals] and [ReplaceDayIntervals];
    their bodies live in [data_business_common.cpp], which is not part of
    the sources at hand.  They are modelled from the spec below. *)

(** Modelled from the spec: the sort order of normalization step 2 of
    [WorkingIntervals::normalized()], by [start] ascending, ties broken by
    [end] ascending. *)
Definition interval_le (x y : WorkingInterval) : bool :=
  (start x <? start y) || ((start x =? start y) && (end_ x <=? end_ y)).

(** Modelled from the spec: insertion into a sorted list. *)
Fixpoint insert_sorted (x : WorkingInterval) (l : list WorkingInterval)
    : list WorkingInterval :=
  match l with
  | [] => [x]
  | y :: r => if interval_le x y then x :: y :: r else y :: insert_sorted x r
  end.

(** Modelled from the spec: normalization step 2, sorting. *)
Fixpoint sort_intervals (l : list WorkingInterval) : list WorkingInterval :=
  match l with
  | [] => []
  | x :: r => insert_sorted x (sort_intervals r)
  end.

(** Modelled from the spec: normalization steps 3 and 4.  [acc] is the
    running accumulator; [next] is merged into it with [united] when
    [next.start <= acc.end], otherwise [acc] is flushed and [next] starts a
    new accumulator; the last accumulator is flushed at the end. *)
Fixpoint sweep (acc : WorkingInterval) (l : list WorkingInterval)
    : list WorkingInterval :=
  match l with
  | [] => [acc]
  | next :: r =>
      if start next <=? end_ acc then sweep (united acc next) r
      else acc :: sweep next r
  end.

Definition merge_sorted (l : list WorkingInterval) : list WorkingInterval :=
  match l with
  | [] => []
  | x :: r => sweep x r
  end.

(** Modelled from the spec: normalization steps 1 to 4 (discard empty
    intervals, sort, sweep). *)
Definition sort_and_merge (l : list WorkingInterval) : list WorkingInterval :=
  merge_sorted (sort_intervals (filter interval_bool l)).

(** Modelled from the spec: the canonicalization of the normalization
    contract to the [[0, kWeek)] representation, for one interval.  An
    interval at least a week long covers the whole week; otherwise it is
    moved by whole weeks so that it starts in [[0, kWeek)], and the part
    that then extends past [kWeek] is wrapped onto the start of the week.
    Intervals at negative offsets or beyond one week are handled alike. *)
Definition week_pieces (i : WorkingInterval) : list WorkingInterval :=
  let len := end_ i - start i in
  if kWeek <=? len then [ {| start := 0; end_ := kWeek |} ]
  else
    let s := start i mod kWeek in
    if s + len <=? kWeek then [ {| start := s; end_ := s + len |} ]
    else [ {| start := s; end_ := kWeek |};
           {| start := 0; end_ := s + len - kWeek |} ].

(** Modelled from the spec: normalization step 5, on the sorted and merged
    list of week-relative intervals.  Time that runs across the wrap point
    shows up as a first interval starting at [0] together with a last one
    ending at [kWeek].  When the part after the wrap point is at most
    [kInNextDayMax] long it is retained as an explicit overshoot of the last
    interval, [[start last, kWeek + end first)], and the first interval is
    dropped; when it is longer it stays merged with the start of the week.
    Nothing is dropped or duplicated either way. *)
Definition wrap_overshoot (l : list WorkingInterval) : list WorkingInterval :=
  match l with
  | first :: ((_ :: _) as rest) =>
      let last := List.last rest first in
      if (start first =? 0) && (end_ last =? kWeek)
         && (end_ first <=? kInNextDayMax)
      then removelast rest
           ++ [ {| start := start last; end_ := kWeek + end_ first |} ]
      else l
  | _ => l
  end.

(** Modelled from the spec: normalization steps 1 to 5: discard the empty
    intervals, canonicalize to the week, sort and sweep, handle the
    wraparound. *)
Definition normalized_list (l : list WorkingInterval) : list WorkingInterval :=
  wrap_overshoot
    (sort_and_merge (flat_map week_pieces (filter interval_bool l))).

(** Modelled from the spec: [WorkingIntervals::normalized()]. *)
Definition normalized (s : WorkingIntervals) : WorkingIntervals :=
  {| list_ := normalized_list (list_ s) |}.

(** Modelled from the spec: the extended window of day [dayIndex],
    [[dayIndex * kDay, (dayIndex + 1) * kDay + kInNextDayMax)]. *)
Definition day_window (dayIndex : Z) : WorkingInterval :=
  {| start := dayIndex * kDay;
     end_ := (dayIndex + 1) * kDay + kInNextDayMax |}.

(** Modelled from the spec: [ExtractDayIntervals(intervals, dayIndex)]:
    every interval clipped to the day's window with [intersected], the
    empty results dropped, the rest expressed day-relative. *)
Definition ExtractDayIntervals (s : WorkingIntervals) (dayIndex : Z)
    : WorkingIntervals :=
  {| list_ :=
       map (fun i => shifted i (- (dayIndex * kDay)))
         (filter interval_bool
            (map (fun i => intersected i (day_window dayIndex)) (list_ s))) |}.

(** Modelled from the spec: the day window subtracted from one interval.
    An interval that does not meet the window passes through unchanged;
    otherwise the non-empty parts before and after the window remain. *)
Definition subtract_window (w i : WorkingInterval) : list WorkingInterval :=
  if negb (interval_bool (intersected i w)) then [i]
  else filter interval_bool
         [ {| start := start i; end_ := start w |};
           {| start := end_ w; end_ := end_ i |} ].

(** Modelled from the spec: [RemoveDayIntervals(intervals, dayIndex)]. *)
Definition RemoveDayIntervals (s : WorkingIntervals) (dayIndex : Z)
    : WorkingIntervals :=
  {| list_ := flat_map (subtract_window (day_window dayIndex)) (list_ s) |}.

(** Modelled from the spec: [ReplaceDayIntervals(intervals, dayIndex,
    replacement)]: [RemoveDayIntervals], then the replacement moved onto
    the day's absolute position, then normalization. *)
Definition ReplaceDayIntervals (s : WorkingIntervals) (dayIndex : Z)
    (replacement : WorkingIntervals) : WorkingIntervals :=
  normalized
    {| list_ := list_ (RemoveDayIntervals s dayIndex)
                ++ map (fun i => shifted i (dayIndex * kDay))
                       (list_ replacement) |}.

(** [WorkingHours::normalized()]: [{ intervals.normalized(), timezoneId }]. *)
Definition WorkingHours_normalized (h : WorkingHours) : WorkingHours :=
  {| intervals := normalized (intervals h); timezoneId := timezoneId h |}.

(** ** [enum class BusinessChatType] and its [base::flags] values *)

Inductive BusinessChatType :=
  | NewChats | ExistingChats | Contacts | NonContacts.

Definition BusinessChatType_value (t : BusinessChatType) : Z :=
  match t with
  | NewChats => Z.shiftl 1 0
  | ExistingChats => Z.shiftl 1 1
  | Contacts => Z.shiftl 1 2
  | NonContacts => Z.shiftl 1 3
  end.

(** ** [struct BusinessLocation] and [struct BusinessDetails]

    [LocationPoint] is declared in [data/data_location.h]; no operation
    here looks into it, so its type is a parameter of the records. *)

Record BusinessLocation {LocationPoint : Type} := mkBusinessLocation {
  address : string;
  point : LocationPoint;
}.
Arguments BusinessLocation : clear implicits.

(** [explicit operator bool() const { return !address.isEmpty(); }] *)
Definition location_bool {P : Type} (l : BusinessLocation P) : bool :=
  negb (QString_isEmpty (address l)).

Record BusinessDetails {LocationPoint : Type} := mkBusinessDetails {
  hours : WorkingHours;
  location : BusinessLocation LocationPoint;
}.
Arguments BusinessDetails : clear implicits.

(** [explicit operator bool() const { return hours || location; }] *)
Definition details_bool {P : Type} (d : BusinessDetails P) : bool :=
  hours_bool (hours d) || location_bool (location d).

End Data.

(** * Shared-media section of [info/profile/info_profile_inner_widget.cpp]

    The widget code composes external widgets; the model keeps what the
    code decides: which media types get a "new window" context menu, which
    buttons [setupSharedMedia] adds for a peer, which sections
    [setupContent] builds, and how members scroll requests are mapped. *)

(** [Storage::SharedMediaType]: the enumerators the file names; [Other]
    stands for every other enumerator of the enum (declared elsewhere). *)
Module Storage.
Inductive SharedMediaType :=
  | Photo | Video | File | MusicFile | Link | RoundVoiceFile | GIF
  | Other (n : nat).

(** [operator==] of the enum. *)
Definition SharedMediaType_eqb (a b : SharedMediaType) : bool :=
  match a, b with
  | Photo, Photo | Video, Video | File, File | MusicFile, MusicFile
  | Link, Link | RoundVoiceFile, RoundVoiceFile | GIF, GIF => true
  | Other n, Other m => Nat.eqb n m
  | _, _ => false
  end.
End Storage.

(** [Window::SeparateSharedMediaType] (the values this file uses) and
    [Window::SeparateId]. *)
Module Window.
Inductive SeparateSharedMediaType :=
  | None | Photos | Videos | Files | Audio | Links | Voices | GIF.

Definition SeparateSharedMediaType_eqb (a b : SeparateSharedMediaType) : bool :=
  match a, b with
  | None, None | Photos, Photos | Videos, Videos | Files, Files
  | Audio, Audio | Links, Links | Voices, Voices | GIF, GIF => true
  | _, _ => false
  end.

Record SeparateId := mkSeparateId {
  sharedMediaType : SeparateSharedMediaType;
  sharedMediaPeer : Z;
}.
End Window.

Module Profile.

(** The peer kinds the file distinguishes: a user (possibly a bot), a
    legacy group chat, or a channel (a megagroup or a broadcast). *)
Inductive PeerKind :=
  | UserPeer (bot : bool)
  | ChatPeer
  | ChannelPeer (megagroup : bool).

Record PeerData := mkPeerData {
  peerId : Z;
  kind : PeerKind;
}.

Definition asUser (p : PeerData) : bool :=
  match kind p with UserPeer _ => true | _ => false end.
Definition asBot (p : PeerData) : bool :=
  match kind p with UserPeer b => b | _ => false end.
Definition asBroadcast (p : PeerData) : bool :=
  match kind p with ChannelPeer m => negb m | _ => false end.
Definition isChat (p : PeerData) : bool :=
  match kind p with ChatPeer => true | _ => false end.
Definition isMegagroup (p : PeerData) : bool :=
  match kind p with ChannelPeer m => m | _ => false end.

(** [ToSeparateType]: the chain of [==] tests with its final default. *)
Definition ToSeparateType (type : Storage.SharedMediaType)
    : Window.SeparateSharedMediaType :=
  let eq := Storage.SharedMediaType_eqb type in
  if eq Storage.Photo then Window.Photos
  else if eq Storage.Video then Window.Videos
  else if eq Storage.File then Window.Files
  else if eq Storage.MusicFile then Window.Audio
  else if eq Storage.Link then Window.Links
  else if eq Storage.RoundVoiceFile then Window.Voices
  else if eq Storage.GIF then Window.GIF
  else Window.None.

(** [SeparateWindowFactory]: [nullptr] ([None]) for [None], otherwise the
    callback, represented by the [SeparateId] it opens in a new window. *)
Definition SeparateWindowFactory (peer : PeerData)
    (type : Storage.SharedMediaType) : option Window.SeparateId :=
  let separateType := ToSeparateType type in
  if Window.SeparateSharedMediaType_eqb separateType Window.None then None
  else Some {| Window.sharedMediaType := separateType;
               Window.sharedMediaPeer := peerId peer |}.

Inductive MouseButton := LeftButton | RightButton | MiddleButton.

(** The popup menu's only action: after the menu's show duration, call the
    callback (open the separate window). *)
Inductive MenuAction := NewWindowAction (target : Window.SeparateId).

(** A click handler: the popup menu it shows for a mouse button, if any. *)
Definition ClickHandler := MouseButton -> option (list MenuAction).

Record AbstractButton := mkAbstractButton {
  acceptBoth : bool;
  clickHandlers : list ClickHandler;
}.

(** [AddContextMenu]: nothing when the factory gives [nullptr]; otherwise
    [setAcceptBoth()] and a click handler that pops up the menu on a right
    click only. *)
Definition AddContextMenu (button : AbstractButton) (peer : PeerData)
    (type : Storage.SharedMediaType) : AbstractButton :=
  match SeparateWindowFactory peer type with
  | None => button
  | Some callback =>
      {| acceptBoth := true;
         clickHandlers :=
           clickHandlers button
           ++ [fun mouse =>
                 match mouse with
                 | RightButton => Some [NewWindowAction callback]
                 | _ => None
                 end] |}
  end.

(** The buttons [setupSharedMedia] adds, in order; a media button carries
    the context-menu callback installed on it, if any. *)
Inductive MediaEntry :=
  | StoriesButton
  | PeerGiftsButton
  | SavedSublistButton
  | MediaButton (type : Storage.SharedMediaType)
                (contextMenu : option Window.SeparateId)
  | CommonGroupsButton
  | SimilarPeersButton.

(** The media types [setupSharedMedia] adds buttons for, in order. *)
Definition sharedMediaTypes : list Storage.SharedMediaType :=
  [Storage.Photo; Storage.Video; Storage.File; Storage.MusicFile;
   Storage.Link; Storage.RoundVoiceFile; Storage.GIF].

(** [InnerWidget::setupSharedMedia]: [hasTopic] is [_topic != nullptr]. *)
Definition setupSharedMedia (hasTopic : bool) (peer : PeerData)
    : list MediaEntry :=
  let addMediaButton type :=
    MediaButton type (if negb hasTopic then SeparateWindowFactory peer type
                      else None) in
  let addStoriesButton := if isChat peer then [] else [StoriesButton] in
  (if negb hasTopic
   then addStoriesButton ++ [PeerGiftsButton; SavedSublistButton]
   else [])
  ++ map addMediaButton sharedMediaTypes
  ++ (if asBot peer then [CommonGroupsButton; SimilarPeersButton]
      else if asBroadcast peer then [SimilarPeersButton]
      else if asUser peer then [CommonGroupsButton]
      else []).

(** The sections [InnerWidget::setupContent] adds to its layout. *)
Inductive ContentSection :=
  | Cover
  | Details
  | SharedMedia (entries : list MediaEntry)
  | ChannelMembersAndManage
  | ActionsDivider
  | Actions
  | Members.

(** [InnerWidget::setupContent]: [topic] is [None] without a topic and
    [Some creating] with one; [hasManage] and [hasActions] say whether
    [SetupChannelMembersAndManage] and [SetupActions] return a widget. *)
Definition setupContent (topic : option bool) (peer : PeerData)
    (hasManage hasActions : bool) : list ContentSection :=
  [Cover] ++
  match topic with
  | Some true => []
  | _ =>
      [Details; SharedMedia (setupSharedMedia
                              (match topic with Some _ => true | _ => false end)
                              peer)] ++
      match topic with
      | Some _ => []
      | None =>
          (if hasManage then [ChannelMembersAndManage] else [])
          ++ (if hasActions then [ActionsDivider; Actions] else [])
          ++ (if isChat peer || isMegagroup peer then [Members] else [])
      end
  end.

(** The scroll request handler of [InnerWidget::setupMembers].
    [MapFrom(this, _members, point)] maps a point of the members list into
    the inner widget, a translation by [membersTop], the members list's
    vertical position inside the inner widget. *)
Definition mapMembersScroll (membersTop ymin ymax : Z) : Z * Z :=
  let MapFromY y := y + membersTop in
  let min := if ymin <? 0 then ymin else MapFromY ymin in
  let max := if ymin <? 0 then MapFromY 0
             else if ymax <? 0 then ymax
             else MapFromY ymax in
  (min, max).

(** The media types of the media buttons in a list of entries, in order. *)
Fixpoint mediaButtonTypes (l : list MediaEntry) : list Storage.SharedMediaType :=
  match l with
  | [] => []
  | MediaButton t _ :: r => t :: mediaButtonTypes r
  | _ :: r => mediaButtonTypes r
  end.

Definition isCommonGroupsButton (e : MediaEntry) : bool :=
  match e with CommonGroupsButton => true | _ => false end.

Definition isSimilarPeersButton (e : MediaEntry) : bool :=
  match e with SimilarPeersButton => true | _ => false end.

End Profile.

(** * Properties *)

Module WorkingHoursFacts.
Import Data.

(** ** Sorted, merged lists *)

(** Every interval non-empty, each one ending strictly before the next
    starts: the shape that normalization produces. *)
Fixpoint gapped (l : list WorkingInterval) : Prop :=
  match l with
  | [] => True
  | x :: r =>
      start x < end_ x /\
      match r with
      | [] => True
      | y :: _ => end_ x < start y
      end /\ gapped r
  end.

(** Starts ascending. *)
Fixpoint sorted_start (l : list WorkingInterval) : Prop :=
  match l with
  | [] => True
  | x :: r =>
      match r with
      | [] => True
      | y :: _ => start x <= start y
      end /\ sorted_start r
  end.

Definition nonempty (i : WorkingInterval) : Prop := start i < end_ i.

(** Half-open membership of the time point [p]: [start <= p < end]. *)
Definition in_iv (p : Z) (i : WorkingInterval) : bool :=
  (start i <=? p) && (p <? end_ i).

(** The time point [p] is covered by some interval of the list. *)
Definition mem (p : Z) (l : list WorkingInterval) : bool :=
  existsb (in_iv p) l.

(** The time point [p] is covered by the interval modulo the week: some
    [p + k * kWeek] lies in it.  The least such point at or after [start]
    is [start + (p - start) mod kWeek]. *)
Definition covered_mod (p : Z) (i : WorkingInterval) : bool :=
  (p - start i) mod kWeek <? end_ i - start i.

(** The time point [p] is covered by the list modulo the week. *)
Definition covered (p : Z) (l : list WorkingInterval) : bool :=
  existsb (covered_mod p) l.

(** Both ends of the interval within [[0, kWeek]]. *)
Definition within_week (i : WorkingInterval) : Prop :=
  0 <= start i /\ end_ i <= kWeek.

Ltac bool_to_prop :=
  repeat match goal with
  | H : (_ <? _) = true |- _ => apply Z.ltb_lt in H
  | H : (_ <? _) = false |- _ => apply Z.ltb_ge in H
  | H : (_ <=? _) = true |- _ => apply Z.leb_le in H
  | H : (_ <=? _) = false |- _ => apply Z.leb_gt in H
  | H : (_ =? _) = true |- _ => apply Z.eqb_eq in H
  | H : (_ =? _) = false |- _ => apply Z.eqb_neq in H
  | H : (_ && _) = true |- _ => apply andb_true_iff in H; destruct H
  | H : (_ || _) = false |- _ => apply orb_false_iff in H; destruct H
  end.

Lemma interval_bool_spec (a : WorkingInterval) :
  interval_bool a = true <-> start a < end_ a.
Proof. unfold interval_bool. apply Z.ltb_lt. Qed.

Lemma interval_bool_false (a : WorkingInterval) :
  interval_bool a = false <-> end_ a <= start a.
Proof. unfold interval_bool. apply Z.ltb_ge. Qed.

Lemma united_nonempty (a b : WorkingInterval) :
  start a < end_ a -> start b < end_ b ->
  united a b = {| start := Z.min (start a) (start b);
                  end_ := Z.max (end_ a) (end_ b) |}.
Proof.
  intros Ha Hb. unfold united.
  rewrite (proj2 (interval_bool_spec a) Ha), (proj2 (interval_bool_spec b) Hb).
  reflexivity.
Qed.

(** C1 (counterexample): [{0, 0}.united({5, 3})] returns [{5, 3}], an empty
    interval that is not the canonical empty interval [{0, 0}]. *)
Lemma united_leaks_noncanonical_empty :
  let r := united WorkingInterval_default {| start := 5; end_ := 3 |} in
  interval_bool r = false /\ r <> WorkingInterval_default.
Proof. simpl. split; [reflexivity | discriminate]. Qed.

(** C1 (amended): only [intersected] normalizes to the canonical empty
    interval: whenever its result is empty it is [{0, 0}].  [shifted]
    returns [{start + offset, end + offset}] unnormalized, and is empty
    exactly when its operand is; [united] returns its second operand
    unchanged when the first is empty (so two empty operands can give a
    non-canonical empty range), and is non-empty as soon as one operand
    is. *)
Theorem interval_ops_emptiness (a b : WorkingInterval) (offset : TimeId) :
  (interval_bool (intersected a b) = false ->
     intersected a b = WorkingInterval_default)
  /\ shifted a offset = {| start := start a + offset; end_ := end_ a + offset |}
  /\ interval_bool (shifted a offset) = interval_bool a
  /\ (interval_bool a = false -> united a b = b)
  /\ (interval_bool a = true \/ interval_bool b = true ->
        interval_bool (united a b) = true).
Proof.
  repeat split.
  - unfold intersected; cbv zeta.
    destruct (interval_bool {| start := Z.max (start a) (start b);
                               end_ := Z.min (end_ a) (end_ b) |}) eqn:E;
      intros H; [congruence | reflexivity].
  - unfold interval_bool, shifted; simpl.
    destruct (start a <? end_ a) eqn:E1, (start a + offset <? end_ a + offset) eqn:E2;
      bool_to_prop; auto; lia.
  - intros H. unfold united. rewrite H. reflexivity.
  - intros [H | H]; unfold united.
    + rewrite H. simpl. destruct (interval_bool b) eqn:Hb; simpl; [|exact H].
      apply interval_bool_spec in H. apply interval_bool_spec in Hb.
      apply interval_bool_spec. simpl. lia.
    + destruct (interval_bool a) eqn:Ha; simpl; [|exact H]. rewrite H. simpl.
      apply interval_bool_spec in H. apply interval_bool_spec in Ha.
      apply interval_bool_spec. simpl. lia.
Qed.

(** C2: [a.united(b)] is [b] when [a] is empty, [a] when [b] is empty and
    [a] is not, and otherwise the bounding interval
    [{min(a.start, b.start), max(a.end, b.end)}], whether or not [a] and
    [b] overlap. *)
Theorem united_cases (a b : WorkingInterval) :
  (interval_bool a = false -> united a b = b)
  /\ (interval_bool a = true -> interval_bool b = false -> united a b = a)
  /\ (interval_bool a = true -> interval_bool b = true ->
        united a b = {| start := Z.min (start a) (start b);
                        end_ := Z.max (end_ a) (end_ b) |}).
Proof.
  unfold united. repeat split; intros Ha; rewrite Ha; simpl; auto.
  intros Hb. rewrite Hb. reflexivity.
  intros Hb. rewrite Hb. reflexivity.
Qed.

(** C3: [a.intersected(b)] is [{max(a.start, b.start), min(a.end, b.end)}]
    when that range is non-empty (the intervals overlap), and the canonical
    empty interval [{0, 0}] when they do not overlap. *)
Theorem intersected_spec (a b : WorkingInterval) :
  (Z.max (start a) (start b) < Z.min (end_ a) (end_ b) ->
     intersected a b = {| start := Z.max (start a) (start b);
                          end_ := Z.min (end_ a) (end_ b) |})
  /\ (Z.min (end_ a) (end_ b) <= Z.max (start a) (start b) ->
     intersected a b = {| start := 0; end_ := 0 |}).
Proof.
  unfold intersected, interval_bool; simpl. split; intros H.
  - apply Z.ltb_lt in H. rewrite H. reflexivity.
  - apply Z.ltb_ge in H. rewrite H. reflexivity.
Qed.

(** C6: on two non-empty intervals that overlap or touch, [united] is
    commutative. *)
Theorem united_comm_overlapping (a b : WorkingInterval)
    (Ha : interval_bool a = true) (Hb : interval_bool b = true)
    (Hab : start b <= end_ a) (Hba : start a <= end_ b) :
  united a b = united b a.
Proof.
  apply interval_bool_spec in Ha. apply interval_bool_spec in Hb.
  rewrite (united_nonempty a b Ha Hb), (united_nonempty b a Hb Ha).
  f_equal; lia.
Qed.

Lemma united_comm_overlapping_witness :
  let a := {| start := 0; end_ := 100 |} in
  let b := {| start := 50; end_ := 150 |} in
  (interval_bool a = true /\ interval_bool b = true
   /\ start b <= end_ a /\ start a <= end_ b)
  /\ united a b = united b a.
Proof.
  simpl. split.
  - repeat split; try reflexivity; discriminate.
  - apply united_comm_overlapping; try reflexivity; simpl; discriminate.
Defined.

(** C7: [shifted] translates both ends by the offset with no clamping, and
    shifting by [kWeek] then by [-kWeek] gives the interval back. *)
Theorem shifted_week_roundtrip (a : WorkingInterval) (offset : TimeId) :
  shifted a offset = {| start := start a + offset; end_ := end_ a + offset |}
  /\ shifted (shifted a kWeek) (- kWeek) = a.
Proof.
  split; [reflexivity|].
  destruct a as [s e]. unfold shifted, kWeek, kDay; simpl. f_equal; lia.
Qed.

(** C8: the [bool] conversion of an interval is [start < end], and an
    interval is empty exactly when [start >= end]. *)
Theorem interval_bool_iff (a : WorkingInterval) :
  (interval_bool a = true <-> start a < end_ a)
  /\ (interval_bool a = false <-> start a >= end_ a).
Proof.
  split; [apply interval_bool_spec|].
  rewrite interval_bool_false. lia.
Qed.

(** C9: the [bool] conversion of [WorkingHours] is true exactly when its
    timezone id is non-empty, whatever its intervals are. *)
Theorem hours_bool_iff (h : WorkingHours) :
  (hours_bool h = true <-> timezoneId h <> EmptyString)
  /\ (forall other : WorkingIntervals,
        hours_bool {| intervals := other; timezoneId := timezoneId h |}
        = hours_bool h).
Proof.
  split; [|reflexivity].
  unfold hours_bool. destruct (timezoneId h); simpl; split; intros H.
  - discriminate.
  - exfalso. apply H. reflexivity.
  - discriminate.
  - reflexivity.
Qed.

(** C10: the [bool] conversion of [WorkingIntervals] is true exactly when
    some interval of the list has [start < end]; a list of empty intervals
    only, and in particular the empty list, converts to false. *)
Theorem intervals_bool_iff (s : WorkingIntervals) :
  (intervals_bool s = true <->
     exists i, In i (list_ s) /\ start i < end_ i)
  /\ ((forall i, In i (list_ s) -> end_ i <= start i) ->
        intervals_bool s = false)
  /\ intervals_bool {| list_ := [] |} = false.
Proof.
  unfold intervals_bool. destruct s as [l]; simpl.
  assert (Hiff : intervals_bool_loop l = true <->
                 exists i, In i l /\ start i < end_ i).
  { induction l as [|x r IH]; simpl.
    - split; [discriminate | intros (i & [] & _)].
    - destruct (interval_bool x) eqn:Hx.
      + apply interval_bool_spec in Hx. split; [|reflexivity].
        intros _. exists x. auto.
      + apply interval_bool_false in Hx. rewrite IH. split.
        * intros (i & Hi & Hlt). exists i. auto.
        * intros (i & [<- | Hi] & Hlt); [lia|]. exists i. auto. }
  split; [exact Hiff|]. split; [|reflexivity].
  intros Hall. apply not_true_is_false. intros E.
  apply Hiff in E. destruct E as (i & Hi & Hlt).
  specialize (Hall i Hi). lia.
Qed.

Lemma gapped_tail (x : WorkingInterval) (r : list WorkingInterval) :
  gapped (x :: r) -> gapped r.
Proof. simpl. tauto. Qed.

Lemma gapped_nonempty (l : list WorkingInterval) :
  gapped l -> Forall nonempty l.
Proof.
  induction l as [|x r IH]; simpl; intros H; constructor; unfold nonempty; tauto.
Qed.

Lemma filter_nonempty_id (l : list WorkingInterval) :
  Forall nonempty l -> filter interval_bool l = l.
Proof.
  induction 1 as [|x r Hx _ IH]; simpl; [reflexivity|].
  apply interval_bool_spec in Hx. rewrite Hx, IH. reflexivity.
Qed.

Lemma sort_gapped_id (l : list WorkingInterval) :
  gapped l -> sort_intervals l = l.
Proof.
  induction l as [|x r IH]; intros H; simpl; [reflexivity|].
  rewrite (IH (gapped_tail x r H)).
  destruct r as [|y r']; [reflexivity|].
  simpl in H. simpl. unfold interval_le.
  replace (start x <? start y) with true by (symmetry; apply Z.ltb_lt; lia).
  reflexivity.
Qed.

Lemma sweep_gapped_id (a : WorkingInterval) (r : list WorkingInterval) :
  gapped (a :: r) -> sweep a r = a :: r.
Proof.
  revert a. induction r as [|y r IH]; intros a H; simpl; [reflexivity|].
  simpl in H.
  replace (start y <=? end_ a) with false by (symmetry; apply Z.leb_gt; lia).
  rewrite IH; [reflexivity|]. simpl. tauto.
Qed.

Lemma sort_and_merge_gapped_id (l : list WorkingInterval) :
  gapped l -> sort_and_merge l = l.
Proof.
  intros H. unfold sort_and_merge.
  rewrite (filter_nonempty_id l (gapped_nonempty l H)), (sort_gapped_id l H).
  destruct l as [|a r]; [reflexivity|]. apply sweep_gapped_id. exact H.
Qed.

Lemma insert_sorted_Forall (P : WorkingInterval -> Prop) x l :
  P x -> Forall P l -> Forall P (insert_sorted x l).
Proof.
  intros Hx Hl. induction Hl as [|y r Hy Hr IH]; simpl.
  - constructor; auto.
  - destruct (interval_le x y); repeat constructor; auto.
Qed.

Lemma sort_intervals_Forall (P : WorkingInterval -> Prop) l :
  Forall P l -> Forall P (sort_intervals l).
Proof.
  induction 1; simpl; [constructor|]. apply insert_sorted_Forall; auto.
Qed.

Lemma interval_le_false (x y : WorkingInterval) :
  interval_le x y = false -> start y <= start x.
Proof.
  unfold interval_le. intros H. bool_to_prop; lia.
Qed.

Lemma insert_sorted_head (x y : WorkingInterval) l :
  exists z r, insert_sorted x (y :: l) = z :: r /\ (z = x \/ z = y).
Proof.
  simpl. destruct (interval_le x y); eauto.
Qed.

Lemma insert_sorted_sorted (x : WorkingInterval) l :
  sorted_start l -> sorted_start (insert_sorted x l).
Proof.
  induction l as [|y r IH]; simpl; intros H; [tauto|].
  destruct (interval_le x y) eqn:E.
  - simpl. split; [|exact H].
    unfold interval_le in E. apply orb_true_iff in E.
    destruct E as [E|E]; bool_to_prop; lia.
  - apply interval_le_false in E. simpl. destruct H as [Hy Hr].
    split; [|apply IH; exact Hr].
    destruct r as [|w r']; simpl; [lia|].
    destruct (interval_le x w); simpl; lia.
Qed.

Lemma sort_intervals_sorted (l : list WorkingInterval) :
  sorted_start (sort_intervals l).
Proof.
  induction l as [|x r IH]; simpl; [exact I|].
  apply insert_sorted_sorted. exact IH.
Qed.

Lemma sorted_start_tail x r : sorted_start (x :: r) -> sorted_start r.
Proof. simpl. tauto. Qed.

(** The sweep of a start-sorted list of non-empty intervals is gapped and
    begins at the accumulator's start. *)
Lemma sweep_shape (a : WorkingInterval) (r : list WorkingInterval) :
  nonempty a -> Forall nonempty r -> sorted_start (a :: r) ->
  exists b t, sweep a r = b :: t /\ start b = start a /\ gapped (b :: t).
Proof.
  revert a. induction r as [|y r IH]; intros a Ha Hr Hs; simpl.
  - exists a, []. simpl. unfold nonempty in Ha. tauto.
  - inversion Hr as [|? ? Hy Hr']; subst.
    destruct Hs as [Hay Hs].
    destruct (start y <=? end_ a) eqn:E.
    + rewrite (united_nonempty a y Ha Hy).
      destruct (IH {| start := Z.min (start a) (start y);
                      end_ := Z.max (end_ a) (end_ y) |}) as (b & t & Hb & Hsb & Hg).
      * unfold nonempty in *; simpl; lia.
      * exact Hr'.
      * simpl. destruct r as [|z r'']; simpl in Hs |- *; [tauto|].
        split; [lia | tauto].
      * exists b, t. simpl in Hsb.
        split; [exact Hb | split; [lia | exact Hg]].
    + apply Z.leb_gt in E.
      destruct (IH y Hy Hr' Hs) as (b & t & Hb & Hsb & Hg).
      exists a, (b :: t). rewrite Hb.
      split; [reflexivity | split; [reflexivity|]].
      simpl. unfold nonempty in Ha. split; [exact Ha | split; [lia | exact Hg]].
Qed.

Lemma sort_and_merge_gapped (l : list WorkingInterval) :
  gapped (sort_and_merge l).
Proof.
  unfold sort_and_merge.
  assert (HF : Forall nonempty (sort_intervals (filter interval_bool l))).
  { apply sort_intervals_Forall. apply Forall_forall.
    intros x Hx. apply filter_In in Hx. apply interval_bool_spec, Hx. }
  pose proof (sort_intervals_sorted (filter interval_bool l)) as HS.
  destruct (sort_intervals (filter interval_bool l)) as [|a r]; simpl; [exact I|].
  inversion HF; subst.
  destruct (sweep_shape a r) as (b & t & -> & _ & Hg); auto.
Qed.

Lemma sweep_length (a : WorkingInterval) (r : list WorkingInterval) :
  (length (sweep a r) <= S (length r))%nat.
Proof.
  revert a. induction r as [|y r IH]; intros a; simpl; [lia|].
  destruct (start y <=? end_ a); simpl.
  - specialize (IH (united a y)). lia.
  - specialize (IH y). lia.
Qed.

Lemma insert_sorted_length x (l : list WorkingInterval) :
  length (insert_sorted x l) = S (length l).
Proof.
  induction l as [|y r IH]; simpl; [reflexivity|].
  destruct (interval_le x y); simpl; auto.
Qed.

Lemma sort_intervals_length (l : list WorkingInterval) :
  length (sort_intervals l) = length l.
Proof.
  induction l as [|x r IH]; simpl; [reflexivity|].
  rewrite insert_sorted_length. auto.
Qed.

Lemma sort_and_merge_length (l : list WorkingInterval) :
  (length (sort_and_merge l) <= length l)%nat.
Proof.
  unfold sort_and_merge.
  assert (Hf : (length (filter interval_bool l) <= length l)%nat)
    by apply filter_length_le.
  rewrite <- (sort_intervals_length (filter interval_bool l)) in Hf.
  destruct (sort_intervals (filter interval_bool l)) as [|a r]; simpl in *; [lia|].
  pose proof (sweep_length a r). lia.
Qed.

(** ** Covered time points *)

Ltac zbool :=
  repeat (rewrite ?orb_false_r, ?orb_true_iff, ?andb_true_iff, ?negb_true_iff,
                  ?andb_false_iff, ?orb_false_iff,
                  ?Z.leb_le, ?Z.ltb_lt, ?Z.leb_gt, ?Z.ltb_ge in *).

Ltac iv_solve :=
  apply eq_true_iff_eq; unfold in_iv, interval_bool in *; simpl in *;
  zbool; split; intros; lia.

Lemma in_iv_spec (p : Z) (i : WorkingInterval) :
  in_iv p i = true <-> start i <= p < end_ i.
Proof. unfold in_iv. zbool. tauto. Qed.

Lemma in_iv_empty (p : Z) (i : WorkingInterval) :
  end_ i <= start i -> in_iv p i = false.
Proof.
  intros H. apply not_true_is_false. rewrite in_iv_spec. lia.
Qed.

Lemma mem_cons p x l : mem p (x :: l) = in_iv p x || mem p l.
Proof. reflexivity. Qed.

Lemma mem_app p l1 l2 : mem p (l1 ++ l2) = mem p l1 || mem p l2.
Proof. unfold mem. apply existsb_app. Qed.

Lemma mem_filter (p : Z) (l : list WorkingInterval) :
  mem p (filter interval_bool l) = mem p l.
Proof.
  induction l as [|x r IH]; simpl; [reflexivity|].
  destruct (interval_bool x) eqn:E; rewrite ?mem_cons, IH; [reflexivity|].
  apply interval_bool_false in E. rewrite (in_iv_empty p x E). reflexivity.
Qed.

Lemma mem_insert_sorted (p : Z) x (l : list WorkingInterval) :
  mem p (insert_sorted x l) = in_iv p x || mem p l.
Proof.
  induction l as [|y r IH]; cbn [insert_sorted]; [reflexivity|].
  destruct (interval_le x y); [reflexivity|].
  rewrite !mem_cons, IH.
  destruct (in_iv p x), (in_iv p y); reflexivity.
Qed.

Lemma mem_sort_intervals (p : Z) (l : list WorkingInterval) :
  mem p (sort_intervals l) = mem p l.
Proof.
  induction l as [|x r IH]; simpl; [reflexivity|].
  rewrite mem_insert_sorted, IH. reflexivity.
Qed.

Lemma in_iv_united_touching (p : Z) (a y : WorkingInterval) :
  start a <= start y -> start y <= end_ a ->
  in_iv p {| start := Z.min (start a) (start y);
             end_ := Z.max (end_ a) (end_ y) |}
  = in_iv p a || in_iv p y.
Proof. intros H1 H2. iv_solve. Qed.

Lemma mem_sweep (p : Z) (a : WorkingInterval) (r : list WorkingInterval) :
  nonempty a -> Forall nonempty r -> sorted_start (a :: r) ->
  mem p (sweep a r) = in_iv p a || mem p r.
Proof.
  revert a. induction r as [|y r IH]; intros a Ha Hr Hs; simpl; [reflexivity|].
  inversion Hr as [|? ? Hy Hr']; subst.
  destruct Hs as [Hay Hs].
  destruct (start y <=? end_ a) eqn:E.
  - apply Z.leb_le in E.
    rewrite (united_nonempty a y Ha Hy), IH; auto.
    + rewrite in_iv_united_touching by assumption. rewrite orb_assoc. reflexivity.
    + unfold nonempty in *; simpl; lia.
    + destruct r as [|z r'']; simpl in Hs |- *; [tauto|]. split; [lia | tauto].
  - rewrite mem_cons, IH; auto.
Qed.

Lemma mem_sort_and_merge (p : Z) (l : list WorkingInterval) :
  mem p (sort_and_merge l) = mem p l.
Proof.
  unfold sort_and_merge.
  rewrite <- (mem_filter p l), <- (mem_sort_intervals p (filter interval_bool l)).
  assert (HF : Forall nonempty (sort_intervals (filter interval_bool l))).
  { apply sort_intervals_Forall. apply Forall_forall.
    intros x Hx. apply filter_In in Hx. apply interval_bool_spec, Hx. }
  pose proof (sort_intervals_sorted (filter interval_bool l)) as HS.
  destruct (sort_intervals (filter interval_bool l)) as [|a r]; simpl; [reflexivity|].
  inversion HF; subst. apply mem_sweep; assumption.
Qed.

(** Every point covered by a gapped list lies at or after its first start. *)
Lemma gapped_mem_lower (p : Z) (b : WorkingInterval) (t : list WorkingInterval) :
  gapped (b :: t) -> mem p (b :: t) = true -> start b <= p.
Proof.
  revert b. induction t as [|c t IH]; intros b Hg Hm.
  - simpl in Hm. rewrite orb_false_r, in_iv_spec in Hm. lia.
  - rewrite mem_cons, orb_true_iff in Hm. destruct Hm as [Hm | Hm].
    + apply in_iv_spec in Hm. lia.
    + simpl in Hg. specialize (IH c (proj2 (proj2 Hg)) Hm). lia.
Qed.

Lemma gapped_tail_after (p : Z) (a : WorkingInterval) (r : list WorkingInterval) :
  gapped (a :: r) -> mem p r = true -> end_ a < p.
Proof.
  intros Hg Hp. destruct r as [|c r']; [discriminate|].
  simpl in Hg. pose proof (gapped_mem_lower p c r' (proj2 (proj2 Hg)) Hp). lia.
Qed.

Lemma gapped_end_uncovered (a : WorkingInterval) (r : list WorkingInterval) :
  gapped (a :: r) -> mem (end_ a) (a :: r) = false.
Proof.
  intros Hg. rewrite mem_cons.
  replace (in_iv (end_ a) a) with false
    by (symmetry; apply not_true_is_false; rewrite in_iv_spec; lia).
  simpl.
  apply not_true_is_false. intros Hm.
  pose proof (gapped_tail_after _ a r Hg Hm). lia.
Qed.

Lemma gapped_head_covered (a : WorkingInterval) (r : list WorkingInterval) p :
  start a <= p < end_ a -> mem p (a :: r) = true.
Proof.
  intros Hp. rewrite mem_cons. apply in_iv_spec in Hp. rewrite Hp. reflexivity.
Qed.

(** A gapped list is determined by the time points it covers. *)
Lemma gapped_unique (l1 l2 : list WorkingInterval) :
  gapped l1 -> gapped l2 -> (forall p, mem p l1 = mem p l2) -> l1 = l2.
Proof.
  revert l2. induction l1 as [|a r1 IH]; intros l2 H1 H2 Hm.
  - destruct l2 as [|b r2]; [reflexivity|]. exfalso.
    assert (Hb : start b < end_ b) by (simpl in H2; tauto).
    specialize (Hm (start b)).
    rewrite (gapped_head_covered b r2) in Hm by lia. discriminate.
  - destruct l2 as [|b r2].
    + exfalso.
      assert (Ha : start a < end_ a) by (simpl in H1; tauto).
      specialize (Hm (start a)).
      rewrite (gapped_head_covered a r1) in Hm by lia. discriminate.
    + assert (Ha : start a < end_ a) by (simpl in H1; tauto).
      assert (Hb : start b < end_ b) by (simpl in H2; tauto).
      assert (Hs : start a = start b).
      { pose proof (gapped_mem_lower (start a) b r2 H2) as L1.
        pose proof (gapped_mem_lower (start b) a r1 H1) as L2.
        rewrite <- Hm, (gapped_head_covered a r1) in L1 by lia.
        rewrite Hm, (gapped_head_covered b r2) in L2 by lia.
        specialize (L1 eq_refl). specialize (L2 eq_refl). lia. }
      assert (He : end_ a = end_ b).
      { destruct (Z.lt_trichotomy (end_ a) (end_ b)) as [Hlt | [Heq | Hgt]];
          [exfalso | exact Heq | exfalso].
        - pose proof (gapped_end_uncovered a r1 H1) as U.
          rewrite Hm, (gapped_head_covered b r2) in U by lia. discriminate.
        - pose proof (gapped_end_uncovered b r2 H2) as U.
          rewrite <- Hm, (gapped_head_covered a r1) in U by lia. discriminate. }
      assert (Hab : a = b) by (destruct a, b; simpl in *; subst; reflexivity).
      subst b. f_equal. apply IH.
      * exact (gapped_tail a r1 H1).
      * exact (gapped_tail a r2 H2).
      * intros p. specialize (Hm p). rewrite !mem_cons in Hm.
        destruct (in_iv p a) eqn:Ea; [|exact Hm].
        apply in_iv_spec in Ea.
        destruct (mem p r1) eqn:E1.
        { pose proof (gapped_tail_after p a r1 H1 E1). lia. }
        destruct (mem p r2) eqn:E2; [|reflexivity].
        pose proof (gapped_tail_after p a r2 H2 E2). lia.
Qed.

Lemma sort_and_merge_ext (l1 l2 : list WorkingInterval) :
  (forall p, mem p l1 = mem p l2) -> sort_and_merge l1 = sort_and_merge l2.
Proof.
  intros Hm. apply gapped_unique; try apply sort_and_merge_gapped.
  intros p. rewrite !mem_sort_and_merge. apply Hm.
Qed.

(** ** Coverage modulo the week *)

Lemma kWeek_pos : 0 < kWeek.
Proof. unfold kWeek, kDay. lia. Qed.

Lemma covered_mod_iff (p : Z) (i : WorkingInterval) :
  covered_mod p i = true <->
  exists q, q mod kWeek = p mod kWeek /\ in_iv q i = true.
Proof.
  pose proof kWeek_pos as Hw.
  unfold covered_mod. rewrite Z.ltb_lt. split.
  - intros H. exists (p - kWeek * ((p - start i) / kWeek)). split.
    + rewrite <- (Z.mod_add p (- ((p - start i) / kWeek)) kWeek) by lia.
      f_equal. ring.
    + apply in_iv_spec.
      pose proof (Z.div_mod (p - start i) kWeek ltac:(lia)) as Hd.
      pose proof (Z.mod_pos_bound (p - start i) kWeek Hw) as Hb.
      lia.
  - intros (q & Hq & Hin). apply in_iv_spec in Hin.
    assert (E : (p - start i) mod kWeek = (q - start i) mod kWeek).
    { rewrite (Zminus_mod p), (Zminus_mod q), Hq. reflexivity. }
    rewrite E. pose proof (Z.mod_le (q - start i) kWeek ltac:(lia) Hw). lia.
Qed.

Lemma covered_iff (p : Z) (l : list WorkingInterval) :
  covered p l = true <->
  exists q, q mod kWeek = p mod kWeek /\ mem q l = true.
Proof.
  unfold covered, mem. rewrite existsb_exists. split.
  - intros (i & Hi & Hc). apply covered_mod_iff in Hc.
    destruct Hc as (q & Hq & Hin). exists q. split; [exact Hq|].
    apply existsb_exists. eauto.
  - intros (q & Hq & Hm). apply existsb_exists in Hm.
    destruct Hm as (i & Hi & Hin). exists i. split; [exact Hi|].
    apply covered_mod_iff. eauto.
Qed.

(** Coverage modulo the week depends only on the covered time points. *)
Lemma covered_ext (p : Z) (l1 l2 : list WorkingInterval) :
  (forall q, mem q l1 = mem q l2) -> covered p l1 = covered p l2.
Proof.
  intros Hm. apply eq_true_iff_eq. rewrite !covered_iff.
  split; intros (q & Hq & Hin); exists q; rewrite ?Hm in *; auto.
Qed.

Lemma covered_mod_periodic (p : Z) (i : WorkingInterval) :
  covered_mod (p mod kWeek) i = covered_mod p i.
Proof.
  pose proof kWeek_pos as Hw. apply eq_true_iff_eq. rewrite !covered_mod_iff.
  rewrite Z.mod_mod by lia. reflexivity.
Qed.

Lemma covered_periodic (p : Z) (l : list WorkingInterval) :
  covered (p mod kWeek) l = covered p l.
Proof.
  induction l as [|x r IH]; simpl; [reflexivity|].
  rewrite covered_mod_periodic, IH. reflexivity.
Qed.

(** For an interval inside [[0, 2 * kWeek]] the candidates for a time point
    of the first week are the point itself and the point one week later. *)
Lemma covered_mod_two_weeks (p : Z) (i : WorkingInterval) :
  0 <= p < kWeek -> 0 <= start i -> end_ i <= 2 * kWeek ->
  covered_mod p i = in_iv p i || in_iv (p + kWeek) i.
Proof.
  intros Hp H0 H1. pose proof kWeek_pos as Hw.
  apply eq_true_iff_eq. rewrite covered_mod_iff, orb_true_iff. split.
  - intros (q & Hq & Hin). pose proof Hin as Hq'. apply in_iv_spec in Hq'.
    rewrite (Z.mod_small p) in Hq by lia.
    destruct (Z_lt_ge_dec q kWeek) as [Hlt | Hge].
    + rewrite Z.mod_small in Hq by lia. subst q. left. exact Hin.
    + assert (E : q mod kWeek = q - kWeek).
      { replace q with ((q - kWeek) + 1 * kWeek) at 1 by ring.
        rewrite Z.mod_add by lia. apply Z.mod_small. lia. }
      right. replace (p + kWeek) with q by lia. exact Hin.
  - intros [Hin | Hin]; [exists p | exists (p + kWeek)]; split; auto.
    replace (p + kWeek) with (p + 1 * kWeek) by ring.
    apply Z.mod_add. lia.
Qed.

Lemma covered_mod_within (p : Z) (i : WorkingInterval) :
  0 <= p < kWeek -> within_week i -> covered_mod p i = in_iv p i.
Proof.
  intros Hp [H0 H1]. pose proof kWeek_pos as Hw.
  rewrite covered_mod_two_weeks by lia.
  replace (in_iv (p + kWeek) i) with false
    by (symmetry; apply not_true_is_false; rewrite in_iv_spec; lia).
  apply orb_false_r.
Qed.

Lemma covered_within (p : Z) (l : list WorkingInterval) :
  0 <= p < kWeek -> Forall within_week l -> covered p l = mem p l.
Proof.
  intros Hp. induction 1 as [|x r Hx _ IH]; simpl; [reflexivity|].
  rewrite covered_mod_within by assumption. rewrite IH. reflexivity.
Qed.

Lemma covered_mod_empty (p : Z) (i : WorkingInterval) :
  end_ i <= start i -> covered_mod p i = false.
Proof.
  intros H. pose proof kWeek_pos as Hw. unfold covered_mod.
  pose proof (Z.mod_pos_bound (p - start i) kWeek Hw).
  apply Z.ltb_ge. lia.
Qed.

Lemma covered_filter (p : Z) (l : list WorkingInterval) :
  covered p (filter interval_bool l) = covered p l.
Proof.
  induction l as [|x r IH]; simpl; [reflexivity|].
  destruct (interval_bool x) eqn:E; simpl; rewrite IH; [reflexivity|].
  apply interval_bool_false in E. rewrite (covered_mod_empty p x E). reflexivity.
Qed.

Lemma mod_first_week (p s : Z) :
  0 <= p < kWeek -> 0 <= s < kWeek ->
  (p - s) mod kWeek = if s <=? p then p - s else p - s + kWeek.
Proof.
  intros Hp Hs. pose proof kWeek_pos as Hw.
  destruct (s <=? p) eqn:E; bool_to_prop.
  - apply Z.mod_small. lia.
  - rewrite <- (Z.mod_add (p - s) 1 kWeek) by lia. apply Z.mod_small. lia.
Qed.

(** The pieces of one interval cover, within the first week, exactly the
    time points it covers modulo the week, and nothing outside it. *)
Lemma week_pieces_mem (p : Z) (i : WorkingInterval) :
  mem p (week_pieces i) = (0 <=? p) && (p <? kWeek) && covered_mod p i.
Proof.
  pose proof kWeek_pos as Hw.
  pose proof (Z.mod_pos_bound (start i) kWeek Hw) as Hs.
  unfold week_pieces, covered_mod. cbv zeta.
  destruct (Z.le_gt_cases 0 p) as [Hp0 | Hp0];
    [destruct (Z.lt_ge_cases p kWeek) as [Hp1 | Hp1] |].
  - assert (E : (p - start i) mod kWeek = (p - start i mod kWeek) mod kWeek).
    { rewrite (Zminus_mod p (start i)), (Zminus_mod p (start i mod kWeek)).
      rewrite Z.mod_mod by lia. reflexivity. }
    rewrite E, mod_first_week by lia.
    destruct (kWeek <=? end_ i - start i) eqn:E1;
      [|destruct (start i mod kWeek + (end_ i - start i) <=? kWeek) eqn:E2];
      destruct (start i mod kWeek <=? p) eqn:E3;
      unfold mem, in_iv; simpl; bool_to_prop;
      apply eq_true_iff_eq; zbool; split; intros; lia.
  - replace ((0 <=? p) && (p <? kWeek)) with false
      by (symmetry; apply andb_false_iff; right; apply Z.ltb_ge; lia).
    destruct (kWeek <=? end_ i - start i) eqn:E1;
      [|destruct (start i mod kWeek + (end_ i - start i) <=? kWeek) eqn:E2];
      unfold mem, in_iv; simpl; bool_to_prop;
      apply eq_true_iff_eq; zbool; split; intros; lia.
  - replace (0 <=? p) with false by (symmetry; apply Z.leb_gt; lia).
    destruct (kWeek <=? end_ i - start i) eqn:E1;
      [|destruct (start i mod kWeek + (end_ i - start i) <=? kWeek) eqn:E2];
      unfold mem, in_iv; simpl; bool_to_prop;
      apply eq_true_iff_eq; zbool; split; intros; lia.
Qed.

Lemma mem_week_pieces_all (p : Z) (l : list WorkingInterval) :
  mem p (flat_map week_pieces (filter interval_bool l))
  = (0 <=? p) && (p <? kWeek) && covered p l.
Proof.
  rewrite <- (covered_filter p l).
  induction (filter interval_bool l) as [|x r IH]; simpl.
  - destruct (0 <=? p), (p <? kWeek); reflexivity.
  - rewrite mem_app, week_pieces_mem, IH.
    destruct (0 <=? p), (p <? kWeek); reflexivity.
Qed.

(** Steps 1 to 4 after the canonicalization depend only on the time points
    covered modulo the week. *)
Lemma week_merge_ext (l1 l2 : list WorkingInterval) :
  (forall p, covered p l1 = covered p l2) ->
  sort_and_merge (flat_map week_pieces (filter interval_bool l1))
  = sort_and_merge (flat_map week_pieces (filter interval_bool l2)).
Proof.
  intros Hc. apply sort_and_merge_ext. intros p.
  rewrite !mem_week_pieces_all, Hc. reflexivity.
Qed.

Lemma mem_In (p : Z) (i : WorkingInterval) (l : list WorkingInterval) :
  In i l -> in_iv p i = true -> mem p l = true.
Proof. intros Hi Hp. apply existsb_exists. eauto. Qed.

(** The intervals of a gapped list lie within the range of its points. *)
Lemma gapped_bounds (lo hi : Z) (l : list WorkingInterval) :
  gapped l -> (forall p, mem p l = true -> lo <= p < hi) ->
  Forall (fun i => lo <= start i /\ end_ i <= hi) l.
Proof.
  intros Hg Hb. pose proof (gapped_nonempty l Hg) as Hn.
  apply Forall_forall. intros i Hi.
  rewrite Forall_forall in Hn. specialize (Hn i Hi). unfold nonempty in Hn.
  pose proof (Hb (start i) (mem_In (start i) i l Hi ltac:(apply in_iv_spec; lia))).
  pose proof (Hb (end_ i - 1)
                (mem_In (end_ i - 1) i l Hi ltac:(apply in_iv_spec; lia))).
  lia.
Qed.

Lemma week_merge_within (l : list WorkingInterval) :
  Forall within_week
    (sort_and_merge (flat_map week_pieces (filter interval_bool l))).
Proof.
  apply gapped_bounds; [apply sort_and_merge_gapped|].
  intros p Hp. rewrite mem_sort_and_merge, mem_week_pieces_all in Hp.
  zbool. lia.
Qed.

Lemma last_In_cons (first x : WorkingInterval) (r : list WorkingInterval) :
  In (List.last (x :: r) first) (x :: r).
Proof.
  assert (Hx : x :: r <> []) by discriminate.
  pose proof (app_removelast_last first Hx) as Heq.
  rewrite Heq at 2. apply in_or_app. right. left. reflexivity.
Qed.

Lemma covered_nil (p : Z) : covered p [] = false.
Proof. reflexivity. Qed.

Lemma covered_cons (p : Z) x l : covered p (x :: l) = covered_mod p x || covered p l.
Proof. reflexivity. Qed.

Lemma covered_app (p : Z) (l1 l2 : list WorkingInterval) :
  covered p (l1 ++ l2) = covered p l1 || covered p l2.
Proof. unfold covered. apply existsb_app. Qed.

(** Retaining the overshoot neither drops nor duplicates time modulo the
    week. *)
Lemma wrap_overshoot_covered (p : Z) (l : list WorkingInterval) :
  gapped l -> Forall within_week l ->
  covered p (wrap_overshoot l) = covered p l.
Proof.
  intros Hg Hw. pose proof kWeek_pos as Hk.
  destruct l as [|first [|x r]]; try reflexivity.
  unfold wrap_overshoot. cbv zeta.
  set (last := List.last (x :: r) first).
  destruct ((start first =? 0) && (end_ last =? kWeek)
            && (end_ first <=? kInNextDayMax)) eqn:E; [|reflexivity].
  bool_to_prop.
  assert (Hx : x :: r <> []) by discriminate.
  pose proof (app_removelast_last first Hx) as Heq. fold last in Heq.
  assert (Hlast : within_week last).
  { rewrite Forall_forall in Hw. apply Hw. right. apply last_In_cons. }
  assert (Hfirst : within_week first /\ start first < end_ first).
  { split; [rewrite Forall_forall in Hw; apply Hw; left; reflexivity|].
    simpl in Hg. tauto. }
  assert (Hl2 : start last < end_ last).
  { pose proof (gapped_nonempty _ Hg) as Hn. rewrite Forall_forall in Hn.
    apply Hn. right. apply last_In_cons. }
  destruct Hlast as [Hl0 Hl1], Hfirst as [[Hf0 Hf1] Hf2].
  rewrite <- (covered_periodic p), <- (covered_periodic p (first :: x :: r)).
  pose proof (Z.mod_pos_bound p kWeek Hk) as Hp.
  set (q := p mod kWeek) in *.
  change (first :: x :: r) with ([first] ++ x :: r). rewrite Heq at 2.
  rewrite !covered_app, !covered_cons, !covered_nil, !orb_false_r.
  rewrite !covered_mod_two_weeks by (cbn [start end_]; lia).
  destruct (covered q (removelast (x :: r))); rewrite ?orb_true_r;
    [reflexivity|].
  rewrite !orb_false_l.
  clearbody q. unfold in_iv. cbn [start end_].
  apply eq_true_iff_eq. zbool. split; intros; lia.
Qed.

(** What normalization produces covers, modulo the week, exactly what its
    input covers. *)
Lemma normalized_list_covered (p : Z) (l : list WorkingInterval) :
  covered p (normalized_list l) = covered p l.
Proof.
  pose proof kWeek_pos as Hk.
  unfold normalized_list.
  rewrite wrap_overshoot_covered
    by (apply sort_and_merge_gapped || apply week_merge_within).
  rewrite <- (covered_periodic p), <- (covered_periodic p l).
  pose proof (Z.mod_pos_bound p kWeek Hk) as Hp.
  rewrite covered_within by (assumption || apply week_merge_within).
  rewrite mem_sort_and_merge, mem_week_pieces_all.
  replace (0 <=? p mod kWeek) with true by (symmetry; apply Z.leb_le; lia).
  replace (p mod kWeek <? kWeek) with true by (symmetry; apply Z.ltb_lt; lia).
  reflexivity.
Qed.

Lemma normalized_list_ext_covered (l1 l2 : list WorkingInterval) :
  (forall p, covered p l1 = covered p l2) ->
  normalized_list l1 = normalized_list l2.
Proof.
  intros Hc. unfold normalized_list. rewrite (week_merge_ext l1 l2 Hc).
  reflexivity.
Qed.

Lemma normalized_list_ext (l1 l2 : list WorkingInterval) :
  (forall p, mem p l1 = mem p l2) -> normalized_list l1 = normalized_list l2.
Proof.
  intros Hm. apply normalized_list_ext_covered. intros p. apply covered_ext, Hm.
Qed.

(** C4: [normalized()] is idempotent on every list of intervals. *)
Theorem normalized_idempotent (s : WorkingIntervals) :
  normalized (normalized s) = normalized s.
Proof.
  unfold normalized; simpl. f_equal.
  apply normalized_list_ext_covered. intros p. apply normalized_list_covered.
Qed.

(** ** The shape of the normalized list *)

Lemma gapped_app_last (l : list WorkingInterval) (a b : WorkingInterval) :
  gapped (l ++ [a]) -> start b = start a -> start b < end_ b ->
  gapped (l ++ [b]).
Proof.
  induction l as [|x r IH]; simpl; intros H Hs Hb; [tauto|].
  destruct H as (H1 & H2 & H3). split; [exact H1|].
  split; [|apply IH; assumption].
  destruct r as [|y r']; simpl in *; lia.
Qed.

Lemma wrap_overshoot_shape (l : list WorkingInterval) :
  gapped l -> Forall within_week l ->
  let r := wrap_overshoot l in
  gapped r /\
  Forall (fun i => 0 <= start i < kWeek /\ end_ i <= kWeek + kInNextDayMax) r /\
  (forall d, r = [] \/ end_ (List.last r d) <= kWeek
             \/ end_ (List.last r d) - kWeek < start (hd d r)).
Proof.
  intros Hg Hw. cbv zeta.
  assert (Hb : forall i, In i l ->
            0 <= start i < kWeek /\ end_ i <= kWeek + kInNextDayMax
            /\ start i < end_ i /\ end_ i <= kWeek).
  { intros i Hi. rewrite Forall_forall in Hw. destruct (Hw i Hi) as [H0 H1].
    pose proof (gapped_nonempty l Hg) as Hn. rewrite Forall_forall in Hn.
    specialize (Hn i Hi). unfold nonempty, kInNextDayMax in *. lia. }
  assert (Hl : forall d, l = [] \/ end_ (List.last l d) <= kWeek).
  { intros d. destruct l as [|a t]; [left; reflexivity|]. right.
    assert (Hx : a :: t <> []) by discriminate.
    pose proof (app_removelast_last d Hx) as Heq.
    apply Hb. rewrite Heq at 2. apply in_or_app. right. left. reflexivity. }
  assert (Hid : gapped l /\
    Forall (fun i => 0 <= start i < kWeek /\ end_ i <= kWeek + kInNextDayMax) l /\
    (forall d, l = [] \/ end_ (List.last l d) <= kWeek
               \/ end_ (List.last l d) - kWeek < start (hd d l))).
  { split; [exact Hg|]. split.
    - apply Forall_forall. intros i Hi. specialize (Hb i Hi). tauto.
    - intros d. destruct (Hl d); tauto. }
  destruct l as [|first [|x r]]; try exact Hid.
  unfold wrap_overshoot. cbv zeta.
  set (last := List.last (x :: r) first).
  destruct ((start first =? 0) && (end_ last =? kWeek)
            && (end_ first <=? kInNextDayMax)) eqn:E; [|exact Hid].
  bool_to_prop.
  assert (Hx : x :: r <> []) by discriminate.
  pose proof (app_removelast_last first Hx) as Heq. fold last in Heq.
  assert (Hlast : In last (first :: x :: r))
    by (right; apply last_In_cons).
  destruct (Hb last Hlast) as (Hl0 & Hl1 & Hl2 & Hl3).
  destruct (Hb first (or_introl eq_refl)) as (Hf0 & Hf1 & Hf2 & Hf3).
  assert (Hfx : end_ first < start x) by (simpl in Hg; tauto).
  split; [|split].
  - apply gapped_app_last with (a := last); cbn [start end_]; [|reflexivity|lia].
    rewrite <- Heq. exact (gapped_tail _ _ Hg).
  - apply Forall_app. split.
    + apply Forall_forall. intros i Hi.
      assert (Hi' : In i (first :: x :: r)).
      { right. rewrite Heq. apply in_or_app. left. exact Hi. }
      specialize (Hb i Hi'). tauto.
    + repeat constructor; cbn [start end_]; lia.
  - intros d. right. right. rewrite last_last. cbn [end_].
    destruct r as [|y r']; cbn [removelast app hd start].
    + subst last. cbn [List.last] in *. lia.
    + lia.
Qed.

(** The normalized list is sorted and gapped, every interval starts within
    the week and overshoots it by at most [kInNextDayMax], and an overshoot
    of the last interval ends before the first interval starts, so no time
    of the week is covered twice. *)
Lemma normalized_shape (s : WorkingIntervals) :
  let r := list_ (normalized s) in
  gapped r /\
  Forall (fun i => 0 <= start i < kWeek /\ end_ i <= kWeek + kInNextDayMax) r /\
  (forall d, r = [] \/ end_ (List.last r d) <= kWeek
             \/ end_ (List.last r d) - kWeek < start (hd d r)).
Proof.
  unfold normalized, normalized_list. simpl.
  apply wrap_overshoot_shape; [apply sort_and_merge_gapped | apply week_merge_within].
Qed.

(** ** Day extraction, removal and replacement *)

Lemma in_iv_shift_back (p o : Z) (i : WorkingInterval) :
  in_iv p (shifted (shifted i (- o)) o) = in_iv p i.
Proof. unfold shifted. iv_solve. Qed.

Lemma in_iv_intersected (p : Z) (i w : WorkingInterval) :
  in_iv p (intersected i w) = in_iv p i && in_iv p w.
Proof.
  unfold intersected; cbv zeta.
  destruct (interval_bool {| start := Z.max (start i) (start w);
                             end_ := Z.min (end_ i) (end_ w) |}) eqn:E;
    iv_solve.
Qed.

Lemma mem_subtract_window (p : Z) (w i : WorkingInterval) :
  mem p (subtract_window w i) = in_iv p i && negb (in_iv p w).
Proof.
  unfold subtract_window, intersected, interval_bool, mem; cbv zeta; simpl.
  destruct (Z.max (start i) (start w) <? Z.min (end_ i) (end_ w)) eqn:E; simpl;
    repeat match goal with
    | |- context [if (?a <? ?b) then _ else _] => destruct (a <? b) eqn:?
    | |- context [negb (?a <? ?b)] => destruct (a <? b) eqn:?
    end; simpl; iv_solve.
Qed.

Lemma mem_flat_map_subtract (p : Z) (w : WorkingInterval) l :
  mem p (flat_map (subtract_window w) l)
  = existsb (fun i => in_iv p i && negb (in_iv p w)) l.
Proof.
  induction l as [|x r IH]; simpl; [reflexivity|].
  rewrite mem_app, mem_subtract_window, IH. reflexivity.
Qed.

Lemma mem_shift_roundtrip (p o : Z) (l : list WorkingInterval) :
  mem p (map (fun i => shifted i o) (map (fun i => shifted i (- o)) l))
  = mem p l.
Proof.
  induction l as [|x r IH]; cbn [map]; [reflexivity|].
  rewrite !mem_cons, in_iv_shift_back, IH. reflexivity.
Qed.

Lemma mem_map_intersected (p : Z) (w : WorkingInterval) l :
  mem p (map (fun i => intersected i w) l)
  = existsb (fun i => in_iv p i && in_iv p w) l.
Proof.
  induction l as [|x r IH]; cbn [map existsb]; [reflexivity|].
  rewrite mem_cons, in_iv_intersected, IH. reflexivity.
Qed.

Lemma existsb_split (f : WorkingInterval -> bool) (c : bool) l :
  existsb (fun i => f i && negb c) l || existsb (fun i => f i && c) l
  = existsb f l.
Proof.
  induction l as [|x r IH]; simpl; [reflexivity|].
  rewrite <- IH.
  generalize (existsb (fun i => f i && negb c) r) (existsb (fun i => f i && c) r).
  intros b1 b2. destruct c, (f x), b1, b2; reflexivity.
Qed.

(** C5: replacing a day by what [ExtractDayIntervals] returns for it gives
    the normalized schedule back. *)
Theorem replace_extract_roundtrip (s : WorkingIntervals) (dayIndex : Z) :
  ReplaceDayIntervals s dayIndex (ExtractDayIntervals s dayIndex)
  = normalized s.
Proof.
  unfold ReplaceDayIntervals, normalized. simpl. f_equal.
  apply normalized_list_ext. intros p.
  rewrite mem_app, mem_shift_roundtrip, mem_filter, mem_map_intersected,
    mem_flat_map_subtract, existsb_split.
  reflexivity.
Qed.

(** The model of [normalized()] on the spec's two sample schedules. *)
Example normalized_merges_overlap :
  normalized {| list_ := [ {| start := 0; end_ := 100 |};
                           {| start := 50; end_ := 150 |} ] |}
  = {| list_ := [ {| start := 0; end_ := 150 |} ] |}.
Proof. reflexivity. Qed.

Example normalized_keeps_disjoint :
  normalized {| list_ := [ {| start := 0; end_ := 100 |};
                           {| start := 200; end_ := 300 |} ] |}
  = {| list_ := [ {| start := 0; end_ := 100 |};
                  {| start := 200; end_ := 300 |} ] |}.
Proof. reflexivity. Qed.

(** The model on schedules that wrap around the week: a negative offset
    and an offset past the week are canonicalized, time covered twice modulo
    the week is merged, and an overshoot longer than [kInNextDayMax] is
    wrapped onto the start of the week. *)
Example normalized_wraps_negative :
  normalized {| list_ := [ {| start := -3600; end_ := 3600 |} ] |}
  = {| list_ := [ {| start := kWeek - 3600; end_ := kWeek + 3600 |} ] |}.
Proof. vm_compute. reflexivity. Qed.

Example normalized_wraps_beyond_week :
  normalized {| list_ := [ {| start := kWeek + 100; end_ := kWeek + 200 |} ] |}
  = {| list_ := [ {| start := 100; end_ := 200 |} ] |}.
Proof. vm_compute. reflexivity. Qed.

Example normalized_merges_modulo_week :
  normalized {| list_ := [ {| start := -100; end_ := 100 |};
                           {| start := kWeek - 50; end_ := kWeek |} ] |}
  = {| list_ := [ {| start := kWeek - 100; end_ := kWeek + 100 |} ] |}.
Proof. vm_compute. reflexivity. Qed.

Example normalized_bounds_overshoot :
  normalized {| list_ := [ {| start := 0; end_ := 36000 |};
                           {| start := kWeek - 3600; end_ := kWeek + 3600 |} ] |}
  = {| list_ := [ {| start := 0; end_ := 36000 |};
                  {| start := kWeek - 3600; end_ := kWeek |} ] |}.
Proof. vm_compute. reflexivity. Qed.

Example normalized_wraps_long_tail :
  normalized {| list_ := [ {| start := kWeek - 3600; end_ := kWeek + 36000 |} ] |}
  = {| list_ := [ {| start := 0; end_ := 36000 |};
                  {| start := kWeek - 3600; end_ := kWeek |} ] |}.
Proof. vm_compute. reflexivity. Qed.

End WorkingHoursFacts.

(** * Further properties of the interval algebra and the profile widget *)

Module ExtraFacts.
Import Data WorkingHoursFacts.

Lemma intersected_comm (a b : WorkingInterval) :
  intersected a b = intersected b a.
Proof.
  unfold intersected. rewrite (Z.max_comm (start a)), (Z.min_comm (end_ a)).
  reflexivity.
Qed.

Lemma intersected_assoc (a b c : WorkingInterval) :
  intersected (intersected a b) c = intersected a (intersected b c).
Proof.
  destruct a as [sa ea], b as [sb eb], c as [sc ec].
  unfold intersected, interval_bool, WorkingInterval_default; simpl.
  destruct (Z.max sa sb <? Z.min ea eb) eqn:E1,
           (Z.max sb sc <? Z.min eb ec) eqn:E2; simpl;
  repeat match goal with
  | |- context [if (?x <? ?y) then _ else _] => destruct (x <? y) eqn:?
  end; simpl in *; bool_to_prop; f_equal; lia.
Qed.

Lemma intersected_self (a : WorkingInterval) :
  intersected a a = if interval_bool a then a else WorkingInterval_default.
Proof.
  destruct a as [s e]. unfold intersected, interval_bool; simpl.
  rewrite !Z.max_id, !Z.min_id. reflexivity.
Qed.

Lemma intersected_with_empty (a b : WorkingInterval)
    (Ha : interval_bool a = false) :
  intersected a b = WorkingInterval_default
  /\ intersected b a = WorkingInterval_default.
Proof.
  apply interval_bool_false in Ha.
  assert (H : intersected a b = WorkingInterval_default).
  { unfold intersected, interval_bool; simpl.
    replace (Z.max (start a) (start b) <? Z.min (end_ a) (end_ b)) with false
      by (symmetry; apply Z.ltb_ge; lia).
    reflexivity. }
  split; [exact H|]. rewrite intersected_comm. exact H.
Qed.

Lemma intersected_with_empty_witness :
  let a := {| start := 5; end_ := 3 |} in
  let b := {| start := 0; end_ := 10 |} in
  interval_bool a = false
  /\ intersected a b = WorkingInterval_default
  /\ intersected b a = WorkingInterval_default.
Proof.
  simpl. split; [reflexivity|].
  apply intersected_with_empty. reflexivity.
Defined.

Lemma intersected_points (p : Z) (a b : WorkingInterval) :
  in_iv p (intersected a b) = in_iv p a && in_iv p b.
Proof. apply in_iv_intersected. Qed.

Lemma united_assoc (a b c : WorkingInterval) :
  united (united a b) c = united a (united b c).
Proof.
  destruct a as [sa ea], b as [sb eb], c as [sc ec].
  unfold united, interval_bool; simpl.
  destruct (sa <? ea) eqn:Ea, (sb <? eb) eqn:Eb, (sc <? ec) eqn:Ec; simpl;
  repeat match goal with
  | H : (?x <? ?y) = _ |- context [?x <? ?y] => rewrite H
  | |- context [if (?x <? ?y) then _ else _] => destruct (x <? y) eqn:?
  | |- context [negb (?x <? ?y)] => destruct (x <? y) eqn:?
  end; simpl in *; bool_to_prop; try reflexivity; f_equal; lia.
Qed.

Lemma united_covers (p : Z) (a b : WorkingInterval)
    (H : in_iv p a || in_iv p b = true) :
  in_iv p (united a b) = true.
Proof.
  destruct a as [sa ea], b as [sb eb].
  unfold united, interval_bool, in_iv in *; simpl in *.
  destruct (sa <? ea) eqn:Ea, (sb <? eb) eqn:Eb; simpl; zbool; bool_to_prop;
    try tauto; lia.
Qed.

Lemma united_covers_witness :
  let a := {| start := 0; end_ := 10 |} in
  let b := {| start := 20; end_ := 30 |} in
  in_iv 25 a || in_iv 25 b = true /\ in_iv 25 (united a b) = true.
Proof.
  simpl. split; [reflexivity|]. apply united_covers. reflexivity.
Defined.

Lemma shifted_add (a : WorkingInterval) (x y : TimeId) :
  shifted (shifted a x) y = shifted a (x + y).
Proof. unfold shifted; simpl. f_equal; lia. Qed.

Lemma shifted_bool (a : WorkingInterval) (o : TimeId) :
  interval_bool (shifted a o) = interval_bool a.
Proof.
  unfold interval_bool, shifted; simpl.
  destruct (start a <? end_ a) eqn:E; bool_to_prop; apply eq_true_iff_eq;
    zbool; split; intros; lia.
Qed.

Lemma shifted_united (a b : WorkingInterval) (o : TimeId) :
  shifted (united a b) o = united (shifted a o) (shifted b o).
Proof.
  unfold united. rewrite !shifted_bool.
  destruct (interval_bool a), (interval_bool b); simpl; try reflexivity.
  unfold shifted; simpl. f_equal; lia.
Qed.

Lemma shifted_intersected (a b : WorkingInterval) (o : TimeId) :
  intersected (shifted a o) (shifted b o)
  = if interval_bool (intersected a b) then shifted (intersected a b) o
    else WorkingInterval_default.
Proof.
  destruct a as [sa ea], b as [sb eb].
  unfold intersected, shifted, interval_bool, WorkingInterval_default; simpl.
  destruct (Z.max sa sb <? Z.min ea eb) eqn:E1; simpl;
  repeat match goal with
  | H : (?x <? ?y) = _ |- context [?x <? ?y] => rewrite H
  | |- context [if (?x <? ?y) then _ else _] => destruct (x <? y) eqn:?
  end; simpl in *; bool_to_prop; try reflexivity; f_equal; lia.
Qed.

Lemma intervals_bool_app (l1 l2 : list WorkingInterval) :
  intervals_bool {| list_ := l1 ++ l2 |}
  = intervals_bool {| list_ := l1 |} || intervals_bool {| list_ := l2 |}.
Proof.
  unfold intervals_bool; simpl.
  induction l1 as [|x r IH]; simpl; [reflexivity|].
  destruct (interval_bool x); [reflexivity | exact IH].
Qed.

Lemma BusinessChatType_disjoint (a b : BusinessChatType) (Hab : a <> b) :
  Z.land (BusinessChatType_value a) (BusinessChatType_value b) = 0.
Proof.
  destruct a, b; try (exfalso; apply Hab; reflexivity); reflexivity.
Qed.

Lemma BusinessChatType_disjoint_witness :
  NewChats <> Contacts
  /\ Z.land (BusinessChatType_value NewChats)
            (BusinessChatType_value Contacts) = 0.
Proof.
  split; [discriminate|]. apply BusinessChatType_disjoint. discriminate.
Defined.

End ExtraFacts.

Module ProfileFacts.
Import Profile.

Lemma ToSeparateType_none_iff (t : Storage.SharedMediaType) :
  ToSeparateType t = Window.None <-> ~ In t sharedMediaTypes.
Proof.
  destruct t; simpl; split; intros H; try discriminate;
    try (exfalso; apply H; tauto); try reflexivity.
  intuition discriminate.
Qed.

Lemma ToSeparateType_injective (a b : Storage.SharedMediaType)
    (Heq : ToSeparateType a = ToSeparateType b)
    (Hn : ToSeparateType a <> Window.None) :
  a = b.
Proof.
  unfold ToSeparateType in *.
  destruct a, b; cbn in Heq, Hn; try reflexivity; try discriminate;
    exfalso; apply Hn; exact Heq.
Qed.

Lemma ToSeparateType_injective_witness :
  ToSeparateType Storage.Link = ToSeparateType Storage.Link
  /\ ToSeparateType Storage.Link <> Window.None
  /\ Storage.Link = Storage.Link.
Proof.
  split; [reflexivity | split; [discriminate|]].
  apply ToSeparateType_injective; [reflexivity | discriminate].
Defined.

Lemma AddContextMenu_noop (button : AbstractButton) (peer : PeerData)
    (type : Storage.SharedMediaType)
    (Hnot : ~ In type sharedMediaTypes) :
  AddContextMenu button peer type = button.
Proof.
  apply ToSeparateType_none_iff in Hnot.
  unfold AddContextMenu, SeparateWindowFactory. rewrite Hnot. reflexivity.
Qed.

Lemma AddContextMenu_noop_witness :
  let b := {| acceptBoth := false; clickHandlers := [] |} in
  let p := {| peerId := 7; kind := ChatPeer |} in
  ~ In (Storage.Other 0) sharedMediaTypes
  /\ AddContextMenu b p (Storage.Other 0) = b.
Proof.
  cbv zeta.
  assert (H : ~ In (Storage.Other 0) sharedMediaTypes)
    by (simpl; intuition discriminate).
  split; [exact H|]. apply AddContextMenu_noop. exact H.
Defined.

Lemma AddContextMenu_installs (button : AbstractButton) (peer : PeerData)
    (type : Storage.SharedMediaType)
    (Hin : In type sharedMediaTypes) :
  ToSeparateType type <> Window.None
  /\ acceptBoth (AddContextMenu button peer type) = true
  /\ exists handler,
       clickHandlers (AddContextMenu button peer type)
       = clickHandlers button ++ [handler]
       /\ handler RightButton
          = Some [NewWindowAction
                    {| Window.sharedMediaType := ToSeparateType type;
                       Window.sharedMediaPeer := peerId peer |}]
       /\ handler LeftButton = None
       /\ handler MiddleButton = None.
Proof.
  simpl in Hin.
  destruct Hin as [<- | [<- | [<- | [<- | [<- | [<- | [<- | []]]]]]]];
    (split; [discriminate | split; [reflexivity|]]);
    eexists; (split; [reflexivity | repeat split]).
Qed.

Lemma AddContextMenu_installs_witness :
  let b := {| acceptBoth := false; clickHandlers := [] |} in
  let p := {| peerId := 7; kind := UserPeer false |} in
  In Storage.GIF sharedMediaTypes
  /\ ToSeparateType Storage.GIF <> Window.None
  /\ acceptBoth (AddContextMenu b p Storage.GIF) = true.
Proof.
  cbv zeta.
  assert (H : In Storage.GIF sharedMediaTypes) by (simpl; tauto).
  split; [exact H|].
  destruct (AddContextMenu_installs
              {| acceptBoth := false; clickHandlers := [] |}
              {| peerId := 7; kind := UserPeer false |} Storage.GIF H)
    as (Hn & Hb & _).
  split; assumption.
Defined.

Lemma setupSharedMedia_media_types (hasTopic : bool) (peer : PeerData) :
  mediaButtonTypes (setupSharedMedia hasTopic peer) = sharedMediaTypes.
Proof.
  unfold setupSharedMedia.
  destruct hasTopic, (isChat peer), (asBot peer), (asBroadcast peer),
    (asUser peer); reflexivity.
Qed.

Lemma setupSharedMedia_context_menus (hasTopic : bool) (peer : PeerData)
    (type : Storage.SharedMediaType) (menu : option Window.SeparateId)
    (Hin : In (MediaButton type menu) (setupSharedMedia hasTopic peer)) :
  menu = if hasTopic then None
         else Some {| Window.sharedMediaType := ToSeparateType type;
                      Window.sharedMediaPeer := peerId peer |}.
Proof.
  unfold setupSharedMedia in Hin.
  rewrite !in_app_iff in Hin.
  destruct Hin as [H | [H | H]].
  - destruct hasTopic, (isChat peer); simpl in H; intuition discriminate.
  - apply in_map_iff in H. destruct H as (t & Ht & Hts).
    injection Ht as <- <-. simpl in Hts.
    destruct Hts as [<- | [<- | [<- | [<- | [<- | [<- | [<- | []]]]]]]];
      destruct hasTopic; reflexivity.
  - destruct (asBot peer), (asBroadcast peer), (asUser peer);
      simpl in H; intuition discriminate.
Qed.

Lemma setupSharedMedia_context_menus_witness :
  let p := {| peerId := 7; kind := ChannelPeer false |} in
  In (MediaButton Storage.Video
        (Some {| Window.sharedMediaType := Window.Videos;
                 Window.sharedMediaPeer := 7 |}))
     (setupSharedMedia false p)
  /\ Some {| Window.sharedMediaType := Window.Videos;
             Window.sharedMediaPeer := 7 |}
     = Some {| Window.sharedMediaType := ToSeparateType Storage.Video;
               Window.sharedMediaPeer := peerId p |}.
Proof.
  cbv zeta.
  assert (H : In (MediaButton Storage.Video
                    (Some {| Window.sharedMediaType := Window.Videos;
                             Window.sharedMediaPeer := 7 |}))
                 (setupSharedMedia false
                    {| peerId := 7; kind := ChannelPeer false |}))
    by (simpl; tauto).
  split; [exact H|].
  exact (setupSharedMedia_context_menus false _ _ _ H).
Defined.

Lemma setupSharedMedia_peer_buttons (hasTopic : bool) (peer : PeerData) :
  (In CommonGroupsButton (setupSharedMedia hasTopic peer)
     <-> asUser peer = true)
  /\ (In SimilarPeersButton (setupSharedMedia hasTopic peer)
     <-> asBot peer || asBroadcast peer = true)
  /\ (length (filter isCommonGroupsButton (setupSharedMedia hasTopic peer))
      <= 1)%nat
  /\ (length (filter isSimilarPeersButton (setupSharedMedia hasTopic peer))
      <= 1)%nat.
Proof.
  destruct peer as [id [[|] | | [|]]];
    destruct hasTopic; unfold setupSharedMedia, asUser, asBot, asBroadcast,
    isChat; simpl; intuition (try discriminate; try lia).
Qed.

Lemma setupSharedMedia_topic_buttons (hasTopic : bool) (peer : PeerData) :
  (In StoriesButton (setupSharedMedia hasTopic peer)
     <-> hasTopic = false /\ isChat peer = false)
  /\ (In PeerGiftsButton (setupSharedMedia hasTopic peer) <-> hasTopic = false)
  /\ (In SavedSublistButton (setupSharedMedia hasTopic peer)
     <-> hasTopic = false).
Proof.
  destruct peer as [id [[|] | | [|]]];
    destruct hasTopic; unfold setupSharedMedia, asUser, asBot, asBroadcast,
    isChat; simpl; intuition discriminate.
Qed.

Lemma setupContent_members (topic : option bool) (peer : PeerData)
    (hasManage hasActions : bool) :
  In Members (setupContent topic peer hasManage hasActions)
  <-> topic = None /\ isChat peer || isMegagroup peer = true.
Proof.
  destruct topic as [[|]|], hasManage, hasActions,
    peer as [id [[|] | | [|]]];
    unfold setupContent, isChat, isMegagroup; simpl;
    intuition discriminate.
Qed.

Lemma setupContent_actions (topic : option bool) (peer : PeerData)
    (hasManage hasActions : bool) :
  (In Actions (setupContent topic peer hasManage hasActions)
     <-> topic = None /\ hasActions = true)
  /\ (topic = None -> hasActions = true ->
      exists l1 l2, setupContent topic peer hasManage hasActions
                    = l1 ++ ActionsDivider :: Actions :: l2).
Proof.
  split.
  - destruct topic as [[|]|], hasManage, hasActions,
      peer as [id [[|] | | [|]]];
      unfold setupContent, isChat, isMegagroup; simpl;
      intuition discriminate.
  - intros -> ->. unfold setupContent.
    exists ([Cover; Details; SharedMedia (setupSharedMedia false peer)]
            ++ (if hasManage then [ChannelMembersAndManage] else [])).
    exists (if isChat peer || isMegagroup peer then [Members] else []).
    destruct hasManage; reflexivity.
Qed.

End ProfileFacts.
